(** * faust.transport.base: deferred offset commit of a Consumer

    A shallow embedding of [src/faust/transport/base.py]: the message tag,
    the weak event reference, the Consumer (construction, event tracking,
    the offset-safety scan and the periodic commit task) and the
    process-wide consumer-id counter.

    Python objects are modelled by their identity, weak references by a
    lookup in the set of objects that are still strongly reachable, and
    the statements of a method by a state-and-exception monad in which the
    state survives a raised exception (as the Python heap does). *)

From Stdlib Require Import ZArith QArith List Sorted Lia.
From stdpp Require Import base option list gmap strings.

Local Open Scope Z_scope.

(** ** Exceptions and the monad of statements *)

Inductive exn : Type :=
| AssertionError
| AttributeError
| TypeError (msg : string)
| NotImplementedError
| BackendError (msg : string).

Inductive result (A : Type) : Type :=
| Ok (a : A)
| Raise (e : exn).
Arguments Ok {A} a.
Arguments Raise {A} e.

(** A statement run from state [s] gives a result and the state it left
    behind; an exception does not undo the writes made before it. *)
Definition M (S A : Type) : Type := S -> result A * S.

Definition ret {S A} (a : A) : M S A := fun s => (Ok a, s).

Definition bind {S A B} (m : M S A) (k : A -> M S B) : M S B :=
  fun s => match m s with
           | (Ok a, s') => k a s'
           | (Raise e, s') => (Raise e, s')
           end.

Definition raise {S A} (e : exn) : M S A := fun s => (Raise e, s).
Definition gets {S A} (f : S -> A) : M S A := fun s => (Ok (f s), s).
Definition modify {S} (f : S -> S) : M S unit := fun s => (Ok tt, f s).

Declare Scope py_scope.
Delimit Scope py_scope with py.
Notation "x <- m ;; k" := (bind m (fun x => k))
  (at level 100, m at next level, right associativity) : py_scope.
Notation "m ;; k" := (bind m (fun _ => k))
  (at level 100, right associativity) : py_scope.
Local Open Scope py_scope.

(** ** Data model *)

(** An application event is only observed through its lifetime: it is
    modelled by its object identity. *)
Definition Event : Type := positive.

(** [class MessageTag(NamedTuple)] *)
Record MessageTag : Type := mkMessageTag {
  consumer_id : Z;
  offset : Z
}.

(** The only callable ever given to an [EventRef] is the bound method
    [on_event_ready] of the consumer that tracks the event. *)
Inductive Callable : Type :=
| on_event_ready_of (consumer : Z).

(** [class EventRef(weakref.ref)]: the referent is not owned.  Every
    reference the consumer makes is given a tag, so the field is not
    optional here. *)
Record EventRef : Type := mkEventRef {
  referent : Event;
  ref_callback : option Callable;
  tag : MessageTag
}.

(** [ref()] : the event while it is strongly reachable, [None] once it has
    been reclaimed. *)
Definition deref (live : gset Event) (ref : EventRef) : option Event :=
  if decide (referent ref ∈ live) then Some (referent ref) else None.

(** Modelled from the spec: the topic descriptor of [..types] is not among
    the sources; it is [{topics: set of string | null, pattern: string |
    null}]. *)
Record Topic : Type := mkTopic {
  topics : option (list string);
  pattern : option string
}.

(** Python truth value of the two fields: [None], the empty collection and
    the empty string are false. *)
Definition truthy_topics (t : option (list string)) : bool :=
  match t with
  | Some (_ :: _) => true
  | _ => false
  end.

Definition truthy_pattern (p : option string) : bool :=
  match p with
  | Some (String _ _) => true
  | _ => false
  end.

Definition ConsumerCallback : Type := nat.
Definition EventLoop : Type := nat.

(** [class Transport] *)
Record Transport : Type := mkTransport {
  url : option string;
  loop : option EventLoop
}.

(** [class Consumer(Service)].  [commit_interval] is the class attribute
    (seconds, a rational here); [service_loop] is what
    [Service.__init__(loop=...)] keeps. *)
Record Consumer : Type := mkConsumer {
  id : Z;
  transport : Transport;
  callback : ConsumerCallback;
  topic : Topic;
  _dirty_events : list EventRef;
  commit_interval : Q;
  service_loop : option EventLoop
}.

Definition set_dirty_events (l : list EventRef) (self : Consumer) : Consumer :=
  {| id := id self; transport := transport self; callback := callback self;
     topic := topic self; _dirty_events := l;
     commit_interval := commit_interval self;
     service_loop := service_loop self |}.

(** ** The offset-safety scan *)

(** A [for] loop of a generator: the body yields some values and either
    falls through to the next element or leaves the loop. *)
Inductive control : Type := Continue | Break.

Fixpoint for_yield {A B} (body : A -> list B * control) (l : list A) : list B :=
  match l with
  | [] => []
  | x :: rest =>
      match body x with
      | (ys, Break) => ys
      | (ys, Continue) => ys ++ for_yield body rest
      end
  end.

(** [Consumer._current_offsets]: the [break] is at the level of the loop
    body, after the [if]. *)
Definition _current_offsets (live : gset Event) (self : Consumer) : list Z :=
  for_yield
    (fun ref =>
       ((match deref live ref with
         | None => [offset (tag ref)]
         | Some _ => []
         end), Break))
    (_dirty_events self).

(** ** Construction and the process-wide id counter *)

(** The state of [Consumer._consumer_ids = count(0)] is the next value it
    will give; [next] returns it and moves the counter on.  Python
    integers do not overflow. *)
Definition next_consumer_id : M Z Z := fun c => (Ok c, c + 1).

(** [Consumer.__init__], run against the shared counter. *)
Definition Consumer__init__ (transport : Transport) (topic : option Topic)
    (callback : option ConsumerCallback) : M Z Consumer :=
  cb <- match callback with
        | Some cb => ret cb
        | None => raise AssertionError
        end;;
  new_id <- next_consumer_id;;
  t <- match topic with
       | Some t => ret t
       | None => raise AttributeError
       end;;
  if truthy_topics (topics t) && truthy_pattern (pattern t)
  then raise (TypeError "Topic can specify either topics or pattern")
  else ret {| id := new_id; transport := transport; callback := cb;
              topic := t; _dirty_events := [];
              commit_interval := 30 # 1;
              service_loop := loop transport |}.

(** [Transport.create_consumer] *)
Definition create_consumer (self : Transport) (topic : option Topic)
    (callback : option ConsumerCallback) : M Z Consumer :=
  Consumer__init__ self topic callback.

(** A construction request, and a run of requests in order against the
    counter: the consumers that were built, oldest first.  A construction
    that raises builds none, and the next request is served from the
    counter as the failure left it. *)
Definition request : Type :=
  (Transport * option Topic * option ConsumerCallback)%type.

Fixpoint construct_all (reqs : list request) (c : Z) : list Consumer * Z :=
  match reqs with
  | [] => ([], c)
  | (tr, tp, cb) :: rest =>
      match create_consumer tr tp cb c with
      | (Ok consumer, c') =>
          let '(cs, c'') := construct_all rest c' in (consumer :: cs, c'')
      | (Raise _, c') => construct_all rest c'
      end
  end.

(** ** The running consumer *)

(** What the consumer does that can be seen from outside. *)
Inductive Line : Type :=
| ACKED_MESSAGE (t : MessageTag)
| COMMITTING (o : Z).

Inductive Effect : Type :=
| Print (l : Line)
| Call_commit (o : Z).

(** [Consumer._commit] is abstract: a backend supplies it over its own
    state. *)
Class Backend (B : Type) : Type := _commit : Z -> M B unit.

(** The base class itself. *)
#[export] Instance abstract_commit : Backend unit :=
  fun _ => raise NotImplementedError.

(** A backend that records the offsets it was asked to commit. *)
#[export] Instance recording_commit : Backend (list Z) :=
  fun o => modify (fun committed => committed ++ [o]).

(** A backend that fails while its budget of failures lasts, then
    records. *)
#[export] Instance flaky_commit : Backend (nat * list Z) :=
  fun o s =>
    match s with
    | (S n, committed) => (Raise (BackendError "unreachable broker"), (n, committed))
    | (O, committed) => (Ok tt, (O, committed ++ [o]))
    end.

Record World (B : Type) : Type := mkWorld {
  self : Consumer;
  live : gset Event;
  now : Q;
  trace : list (Q * Effect);
  backend : B
}.
Arguments mkWorld {B}.
Arguments self {B}.
Arguments live {B}.
Arguments now {B}.
Arguments trace {B}.
Arguments backend {B}.

(** What other tasks do to the consumer while the commit task sleeps. *)
Inductive Op : Type :=
| Track (event : Event) (o : Z)
| Reclaim (event : Event).

Section Running.
Context {B : Type} `{Backend B}.

Definition emit (e : Effect) : M (World B) unit :=
  modify (fun w => mkWorld (self w) (live w) (now w)
                           (trace w ++ [(now w, e)]) (backend w)).

Definition print (l : Line) : M (World B) unit := emit (Print l).

(** [self._dirty_events.append(EventRef(event, self.on_event_ready,
    tag=MessageTag(self.id, offset)))] *)
Definition track_event (event : Event) (o : Z) : M (World B) unit :=
  modify (fun w =>
    let ref := mkEventRef event (Some (on_event_ready_of (id (self w))))
                          (mkMessageTag (id (self w)) o) in
    mkWorld (set_dirty_events (_dirty_events (self w) ++ [ref]) (self w))
            (live w) (now w) (trace w) (backend w)).

(** [print('ACKED MESSAGE %r' % (ref.tag,))] *)
Definition on_event_ready (ref : EventRef) : M (World B) unit :=
  print (ACKED_MESSAGE (tag ref)).

(** [await self._commit(offset)] *)
Definition await_commit (o : Z) : M (World B) unit :=
  emit (Call_commit o);;
  fun w =>
    match _commit o (backend w) with
    | (r, b) => (r, mkWorld (self w) (live w) (now w) (trace w) b)
    end.

Fixpoint call_each (refs : list EventRef) : M (World B) unit :=
  match refs with
  | [] => ret tt
  | ref :: rest =>
      match ref_callback ref with
      | Some (on_event_ready_of _) => on_event_ready ref
      | None => ret tt
      end;;
      call_each rest
  end.

(** The last strong reference to [event] goes away: its weak references
    die, and their callbacks run, the most recently registered first. *)
Definition reclaim (event : Event) : M (World B) unit :=
  was_live <- gets (fun w => bool_decide (event ∈ live w));;
  if was_live : bool then
    modify (fun w => mkWorld (self w) (live w ∖ {[event]}) (now w)
                             (trace w) (backend w));;
    refs <- gets (fun w =>
              filter (fun ref => referent ref = event)
                     (_dirty_events (self w)));;
    call_each (rev refs)
  else ret tt.

Definition run_op (op : Op) : M (World B) unit :=
  match op with
  | Track event o => track_event event o
  | Reclaim event => reclaim event
  end.

Fixpoint run_ops (ops : list Op) : M (World B) unit :=
  match ops with
  | [] => ret tt
  | op :: rest => run_op op;; run_ops rest
  end.

(** [await asyncio.sleep(delay)]: the task is suspended, the clock moves
    on by [delay] and the other tasks run meanwhile. *)
Definition await_sleep (delay : Q) (others : list Op) : M (World B) unit :=
  modify (fun w => mkWorld (self w) (live w) (now w + delay)%Q
                           (trace w) (backend w));;
  run_ops others.

(** [asyncio.sleep(delay)] without [await]: a coroutine object is made
    and dropped; nothing is suspended. *)
Definition sleep_not_awaited (delay : Q) : M (World B) unit := ret tt.

(** One turn of the [while 1] loop. *)
Definition wake (others : list Op) : M (World B) unit :=
  offsets <- gets (fun w => _current_offsets (live w) (self w));;
  match last offsets with
  | Some o => print (COMMITTING o);; await_commit o
  | None => ret tt
  end;;
  interval <- gets (fun w => commit_interval (self w));;
  await_sleep interval others.

(** The loop never ends by itself: it is run for as many turns as the
    schedule of the other tasks is long. *)
Fixpoint commit_loop (schedule : list (list Op)) : M (World B) unit :=
  match schedule with
  | [] => ret tt
  | others :: rest => wake others;; commit_loop rest
  end.

(** [Consumer._commit_handler] *)
Definition _commit_handler (schedule : list (list Op)) : M (World B) unit :=
  interval <- gets (fun w => commit_interval (self w));;
  sleep_not_awaited interval;;
  commit_loop schedule.

(** [Consumer.register_timers]: [asyncio.ensure_future] hands the
    coroutine to the loop, which starts it at its next turn; nothing is
    slept before the coroutine's first statement. *)
Definition register_timers (schedule : list (list Op)) : M (World B) unit :=
  _commit_handler schedule.

End Running.

(** * Properties *)

(** ** The scan *)

Definition offsets_of (dirty : list EventRef) : list Z :=
  (fun ref => offset (tag ref)) <$> dirty.

Lemma deref_None (live : gset Event) (ref : EventRef) :
  deref live ref = None <-> referent ref ∉ live.
Proof. unfold deref. case_decide; split; intros; try done. Qed.

Lemma deref_Some (live : gset Event) (ref : EventRef) :
  is_Some (deref live ref) <-> referent ref ∈ live.
Proof.
  unfold deref. case_decide; split; intros Hx; done.
Qed.

(** The scan by cases on the list, as the loop unfolds. *)
Lemma current_offsets_unfold (live : gset Event) (self : Consumer) :
  _current_offsets live self =
  match _dirty_events self with
  | [] => []
  | ref :: _ =>
      match deref live ref with
      | None => [offset (tag ref)]
      | Some _ => []
      end
  end.
Proof. unfold _current_offsets. by destruct (_dirty_events self). Qed.

Lemma current_offsets_elem (live : gset Event) (self : Consumer) (o : Z) :
  o ∈ _current_offsets live self <->
  exists ref, head (_dirty_events self) = Some ref /\
              offset (tag ref) = o /\ deref live ref = None.
Proof.
  rewrite current_offsets_unfold.
  destruct (_dirty_events self) as [|ref rest]; simpl.
  - split; [intros Hin; inversion Hin | intros (ref & Hhd & _); discriminate].
  - destruct (deref live ref) eqn:Hd; split.
    + intros Hin; inversion Hin.
    + intros (ref' & [= <-] & _ & Hnone). congruence.
    + intros Hin%list_elem_of_singleton. by exists ref.
    + intros (ref' & [= <-] & <- & _). by apply list_elem_of_singleton.
Qed.

Lemma head_elem_of {A} (l : list A) (x : A) : head l = Some x -> x ∈ l.
Proof. intros [l' ->]%head_Some. apply list_elem_of_here. Qed.

(** Two entries of a list whose offsets are pairwise distinct are the same
    entry as soon as they carry the same offset. *)
Lemma offsets_NoDup_inj (dirty : list EventRef) (r1 r2 : EventRef) :
  NoDup (offsets_of dirty) ->
  r1 ∈ dirty -> r2 ∈ dirty ->
  offset (tag r1) = offset (tag r2) -> r1 = r2.
Proof.
  unfold offsets_of. induction dirty as [|x dirty IH]; intros Hnd H1 H2 Heq.
  - inversion H1.
  - rewrite fmap_cons in Hnd. apply NoDup_cons in Hnd as [Hx Hnd].
    apply elem_of_cons in H1 as [->|H1];
      apply elem_of_cons in H2 as [->|H2]; trivial.
    + exfalso. apply Hx. rewrite Heq.
      by apply (list_elem_of_fmap_2 (fun ref => offset (tag ref))).
    + exfalso. apply Hx. rewrite <- Heq.
      by apply (list_elem_of_fmap_2 (fun ref => offset (tag ref))).
    + by apply IH.
Qed.

(** C1, amended: whatever the dirty list and the set of live events, an
    offset yielded by [_current_offsets] was read from a tracked entry
    whose weak reference resolves to nothing; and when the tracked offsets
    are pairwise distinct, no entry that carries a yielded offset has a
    live event. *)
Theorem current_offsets_only_reclaimed
    (live : gset Event) (self : Consumer) (o : Z) :
  o ∈ _current_offsets live self ->
  (exists ref, ref ∈ _dirty_events self /\ offset (tag ref) = o /\
               deref live ref = None) /\
  (NoDup (offsets_of (_dirty_events self)) ->
   forall ref, ref ∈ _dirty_events self -> offset (tag ref) = o ->
               referent ref ∉ live).
Proof.
  intros (hd & Hhd & Ho & Hdead)%current_offsets_elem.
  assert (Hin : hd ∈ _dirty_events self) by by apply head_elem_of.
  split.
  - by exists hd.
  - intros Hnd ref Href Hoff.
    assert (ref = hd) as ->.
    { apply (offsets_NoDup_inj (_dirty_events self)); trivial. congruence. }
    by apply deref_None.
Qed.

Definition demo_transport : Transport := mkTransport None None.

Definition demo_consumer (dirty : list EventRef) : Consumer :=
  mkConsumer 0 demo_transport 0%nat (mkTopic (Some ["orders"%string]) None)
             dirty (30 # 1) None.

Definition demo_ref (e : Event) (o : Z) : EventRef :=
  mkEventRef e (Some (on_event_ready_of 0)) (mkMessageTag 0 o).

(** Offsets 5, 6 and 7 tracked in that order for events 1, 2 and 3. *)
Definition dirty_567 : list EventRef :=
  [demo_ref 1%positive 5; demo_ref 2%positive 6; demo_ref 3%positive 7].

Lemma current_offsets_only_reclaimed_witness :
  (exists ref, ref ∈ dirty_567 /\ offset (tag ref) = 5 /\
               deref {[2%positive; 3%positive]} ref = None) /\
  (NoDup (offsets_of dirty_567) ->
   forall ref, ref ∈ dirty_567 -> offset (tag ref) = 5 ->
               referent ref ∉ ({[2%positive; 3%positive]} : gset Event)).
Proof.
  apply (current_offsets_only_reclaimed
           {[2%positive; 3%positive]} (demo_consumer dirty_567) 5).
  vm_compute. apply list_elem_of_here.
Defined.

(** Two events tracked at the same offset 5, the first reclaimed and the
    second alive: the scan yields 5, which is also the offset of an entry
    whose event is still alive. *)
Lemma scan_yields_offset_of_live_duplicate :
  let dirty := [demo_ref 1%positive 5; demo_ref 2%positive 5] in
  let live : gset Event := {[2%positive]} in
  5 ∈ _current_offsets live (demo_consumer dirty) /\
  demo_ref 2%positive 5 ∈ dirty /\
  offset (tag (demo_ref 2%positive 5)) = 5 /\
  deref live (demo_ref 2%positive 5) = Some 2%positive /\
  ~ (forall ref, ref ∈ dirty -> offset (tag ref) = 5 -> referent ref ∉ live).
Proof.
  cbv zeta. split; [|split; [|split; [|split]]].
  - vm_compute. apply list_elem_of_here.
  - apply list_elem_of_further, list_elem_of_here.
  - reflexivity.
  - reflexivity.
  - intros Hall.
    apply (Hall (demo_ref 2%positive 5)).
    + apply list_elem_of_further, list_elem_of_here.
    + reflexivity.
    + by apply elem_of_singleton.
Qed.

(** C4: one call of the scan yields at most one offset, the head's when
    the head's event is gone and nothing otherwise; what follows the head,
    and which other events are live, has no influence on the result. *)
Theorem current_offsets_head_only (live : gset Event) (self : Consumer) :
  (length (_current_offsets live self) <= 1)%nat /\
  _current_offsets live self =
    match head (_dirty_events self) with
    | Some ref => if decide (referent ref ∈ live) then [] else [offset (tag ref)]
    | None => []
    end /\
  (forall (ref : EventRef) (rest rest' : list EventRef),
     _current_offsets live (set_dirty_events (ref :: rest') self) =
     _current_offsets live (set_dirty_events (ref :: rest) self)) /\
  _current_offsets
    (live ∩ list_to_set (referent <$> take 1 (_dirty_events self)))
    (set_dirty_events (take 1 (_dirty_events self)) self) =
  _current_offsets live self.
Proof.
  split; [|split; [|split]].
  - rewrite current_offsets_unfold.
    destruct (_dirty_events self) as [|ref rest]; simpl; [lia|].
    destruct (deref live ref); simpl; lia.
  - rewrite current_offsets_unfold. unfold deref.
    destruct (_dirty_events self) as [|ref rest]; simpl; trivial.
    by case_decide.
  - intros ref rest rest'. by rewrite !current_offsets_unfold.
  - rewrite !current_offsets_unfold. unfold deref.
    destruct (_dirty_events self) as [|ref rest]; simpl; trivial.
    destruct (decide (referent ref ∈ live)) as [Hin|Hout];
      case_decide as Hcap; trivial; exfalso.
    + apply Hcap, elem_of_intersection. split; trivial.
      apply elem_of_union_l. by apply elem_of_singleton.
    + by apply elem_of_intersection in Hcap as [Hin _].
Qed.

(** ** What the operations leave alone *)

(** The offsets [_commit] was called with, oldest first. *)
Definition commit_calls (tr : list (Q * Effect)) : list Z :=
  omap (fun te => match te.2 with
                  | Call_commit o => Some o
                  | Print _ => None
                  end) tr.

Lemma commit_calls_app (t1 t2 : list (Q * Effect)) :
  commit_calls (t1 ++ t2) = commit_calls t1 ++ commit_calls t2.
Proof. apply omap_app. Qed.

Section Frames.
Context {B : Type} `{Backend B}.

(** What a step of the other tasks (tracking, reclamation and the
    callbacks it fires) may change: the dirty list only grows at its
    tail, events only die, and nothing is committed. *)
Record others_step (w w' : World B) : Prop := mkOthersStep {
  step_id : id (self w') = id (self w);
  step_interval : commit_interval (self w') = commit_interval (self w);
  step_dirty : exists post,
      _dirty_events (self w') = _dirty_events (self w) ++ post;
  step_live : live w' ⊆ live w;
  step_now : now w' = now w;
  step_backend : backend w' = backend w;
  step_calls : commit_calls (trace w') = commit_calls (trace w)
}.

Lemma others_step_refl (w : World B) : others_step w w.
Proof.
  split; trivial. exists []. by rewrite app_nil_r.
Qed.

Lemma others_step_trans (w1 w2 w3 : World B) :
  others_step w1 w2 -> others_step w2 w3 -> others_step w1 w3.
Proof.
  intros [Hi Hc [p Hd] Hl Hn Hb Ht] [Hi' Hc' [p' Hd'] Hl' Hn' Hb' Ht'].
  split; try congruence.
  - exists (p ++ p'). rewrite Hd', Hd. by rewrite app_assoc.
  - set_solver.
Qed.

Lemma track_event_step (event : Event) (o : Z) (w : World B) :
  (track_event event o w).1 = Ok tt /\
  others_step w (track_event event o w).2.
Proof.
  split; trivial. split; simpl; trivial. by eexists.
Qed.

Lemma call_each_step (refs : list EventRef) (w : World B) :
  (call_each refs w).1 = Ok tt /\ others_step w (call_each refs w).2.
Proof.
  revert w. induction refs as [|ref refs IH]; intros w.
  - split; trivial. apply others_step_refl.
  - simpl. unfold bind.
    destruct (ref_callback ref) as [[c]|]; simpl.
    + match goal with |- context [call_each refs ?w1] =>
        destruct (IH w1) as [Hok Hstep];
        destruct (call_each refs w1) as [r w2] eqn:Hrun end.
      simpl in *. split; trivial.
      eapply others_step_trans; [|exact Hstep].
      split; simpl; trivial.
      * exists []. by rewrite app_nil_r.
      * rewrite commit_calls_app. simpl. by rewrite app_nil_r.
    + apply IH.
Qed.

Lemma reclaim_step (event : Event) (w : World B) :
  (reclaim event w).1 = Ok tt /\ others_step w (reclaim event w).2.
Proof.
  unfold reclaim, bind, gets, modify. simpl.
  destruct (bool_decide (event ∈ live w)).
  - match goal with |- context [call_each ?refs ?w1] =>
      destruct (call_each_step refs w1) as [Hok Hstep];
      destruct (call_each refs w1) as [r w2] eqn:Hrun end.
    simpl in *. split; trivial.
    eapply others_step_trans; [|exact Hstep].
    split; simpl; trivial.
    + exists []. by rewrite app_nil_r.
    + by apply subseteq_difference_l.
  - split; trivial. apply others_step_refl.
Qed.

Lemma run_op_step (op : Op) (w : World B) :
  (run_op op w).1 = Ok tt /\ others_step w (run_op op w).2.
Proof.
  destruct op; [apply track_event_step | apply reclaim_step].
Qed.

Lemma run_ops_step (ops : list Op) (w : World B) :
  (run_ops ops w).1 = Ok tt /\ others_step w (run_ops ops w).2.
Proof.
  revert w. induction ops as [|op ops IH]; intros w.
  - split; trivial. apply others_step_refl.
  - simpl. unfold bind.
    destruct (run_op_step op w) as [Hok Hstep].
    destruct (run_op op w) as [r w1]. simpl in Hok, Hstep. subst r.
    destruct (IH w1) as [Hok' Hstep']. split; trivial.
    eapply others_step_trans; eassumption.
Qed.

Lemma await_sleep_step (delay : Q) (others : list Op) (w : World B) :
  (await_sleep delay others w).1 = Ok tt /\
  now (await_sleep delay others w).2 = (now w + delay)%Q /\
  commit_calls (trace (await_sleep delay others w).2) =
    commit_calls (trace w) /\
  backend (await_sleep delay others w).2 = backend w.
Proof.
  unfold await_sleep, bind, modify.
  match goal with |- context [run_ops others ?w1] =>
    destruct (run_ops_step others w1) as [Hok [_ _ _ _ Hn Hb Ht]] end.
  repeat split; trivial.
Qed.

End Frames.

(** ** Tracking, acknowledgment and the commit task *)

(** The entries the other tasks' tracking calls append for the consumer
    with identifier [cid]. *)
Definition tracked_refs (cid : Z) (ops : list Op) : list EventRef :=
  omap (fun op => match op with
                  | Track event o =>
                      Some (mkEventRef event (Some (on_event_ready_of cid))
                                       (mkMessageTag cid o))
                  | Reclaim _ => None
                  end) ops.

Section Task.
Context {B : Type} `{Backend B}.

Lemma call_each_self (refs : list EventRef) (w : World B) :
  self (call_each refs w).2 = self w.
Proof.
  revert w. induction refs as [|ref refs IH]; intros w; trivial.
  simpl. unfold bind.
  destruct (ref_callback ref) as [[c]|]; simpl; by rewrite IH.
Qed.

Lemma reclaim_self (event : Event) (w : World B) :
  self (reclaim event w).2 = self w.
Proof.
  unfold reclaim, bind, gets, modify. simpl.
  destruct (bool_decide (event ∈ live w)); trivial.
  match goal with |- context [call_each ?refs ?w1] =>
    pose proof (call_each_self refs w1) as Hs;
    destruct (call_each refs w1) as [[] w2] end; exact Hs.
Qed.

Lemma run_ops_dirty (ops : list Op) (w : World B) :
  _dirty_events (self (run_ops ops w).2) =
  _dirty_events (self w) ++ tracked_refs (id (self w)) ops.
Proof.
  revert w. induction ops as [|op ops IH]; intros w.
  - simpl. by rewrite app_nil_r.
  - simpl. unfold bind.
    destruct (run_op_step op w) as [Hok [Hid _ _ _ _ _ _]].
    destruct (run_op op w) as [r w1] eqn:Hrun. simpl in Hok, Hid. subst r.
    rewrite IH, Hid. destruct op as [event o|event]; simpl.
    + simpl in Hrun. injection Hrun as <-. simpl.
      by rewrite <- app_assoc.
    + pose proof (reclaim_self event w) as Hs. simpl in Hrun.
      rewrite Hrun in Hs. simpl in Hs. by rewrite Hs.
Qed.

(** The state right after the [print] and the call of [_commit o]. *)
Definition after_commit_call (o : Z) (w : World B) : World B :=
  mkWorld (self w) (live w) (now w)
          (trace w ++ [(now w, Print (COMMITTING o));
                       (now w, Call_commit o)])
          (_commit o (backend w)).2.

Lemma wake_raises (others : list Op) (o : Z) (e : exn) (w : World B) :
  last (_current_offsets (live w) (self w)) = Some o ->
  (_commit o (backend w)).1 = Raise e ->
  wake others w = (Raise e, after_commit_call o w).
Proof.
  intros Hlast Hraise.
  unfold wake, bind, gets. rewrite Hlast.
  unfold print, await_commit, emit, bind, modify, after_commit_call. simpl.
  destruct (_commit o (backend w)) as [r b]. simpl in Hraise. subst r.
  simpl. by rewrite <- app_assoc.
Qed.

Lemma wake_commits (others : list Op) (o : Z) (w : World B) :
  last (_current_offsets (live w) (self w)) = Some o ->
  (_commit o (backend w)).1 = Ok tt ->
  wake others w =
  await_sleep (commit_interval (self w)) others (after_commit_call o w).
Proof.
  intros Hlast Hok.
  unfold wake, bind, gets. rewrite Hlast.
  unfold print, await_commit, emit, bind, modify, after_commit_call. simpl.
  destruct (_commit o (backend w)) as [r b]. simpl in Hok. subst r.
  simpl. by rewrite <- app_assoc.
Qed.

Lemma wake_idle (others : list Op) (w : World B) :
  last (_current_offsets (live w) (self w)) = None ->
  wake others w = await_sleep (commit_interval (self w)) others w.
Proof.
  intros Hlast. unfold wake, bind, gets. rewrite Hlast. simpl.
  by destruct w.
Qed.


End Task.


Definition world_567 : World (list Z) :=
  mkWorld (demo_consumer dirty_567) {[2%positive; 3%positive]} 0%Q [] [].


Lemma tracked_refs_app (cid : Z) (ops1 ops2 : list Op) :
  tracked_refs cid (ops1 ++ ops2) = tracked_refs cid ops1 ++ tracked_refs cid ops2.
Proof. apply omap_app. Qed.

(** A consumer that tracks nothing yet, with events 1 and 2 in flight. *)
Definition world_fresh : World (list Z) :=
  mkWorld (demo_consumer []) {[1%positive; 2%positive]} 0%Q [] [].

(** Offset 6 is tracked behind offset 5 and its event is reclaimed first:
    the next scan does not yield 6. *)
Lemma reclaimed_behind_head_not_scanned :
  let w := (run_ops [Track 1%positive 5; Track 2%positive 6;
                     Reclaim 2%positive] world_fresh).2 in
  (2%positive ∉ live w) /\ (6 ∉ _current_offsets (live w) (self w)).
Proof. split; compute_done. Qed.

(** C3, amended: for an event tracked by [track_event(e, o)] as the oldest
    entry of the dirty list, [o] is in the result of every scan made once
    [e] has been reclaimed, and no scan yields anything while [e] is
    alive; for an event tracked at any position, while [e] is alive and
    the tracked offsets are pairwise distinct no scan yields [o]. *)
Theorem tracked_offset_scanned_at_head {B : Type} `{Backend B}
    (w : World B) (event : Event) (o : Z) (before after : list Op) :
  let w' := (run_ops (before ++ Track event o :: after) w).2 in
  (_dirty_events (self w) = [] -> tracked_refs (id (self w)) before = [] ->
   (event ∉ live w' -> o ∈ _current_offsets (live w') (self w')) /\
   (event ∈ live w' -> _current_offsets (live w') (self w') = [])) /\
  (event ∈ live w' -> NoDup (offsets_of (_dirty_events (self w'))) ->
   o ∉ _current_offsets (live w') (self w')).
Proof.
  intros w'.
  assert (Hdirty : _dirty_events (self w') =
            _dirty_events (self w) ++ tracked_refs (id (self w)) before ++
            mkEventRef event (Some (on_event_ready_of (id (self w))))
                       (mkMessageTag (id (self w)) o)
            :: tracked_refs (id (self w)) after).
  { subst w'. by rewrite run_ops_dirty, tracked_refs_app. }
  split.
  - intros Hnil Hbefore. rewrite Hnil, Hbefore in Hdirty. simpl in Hdirty.
    rewrite current_offsets_unfold, Hdirty. unfold deref. simpl.
    split; intros Hlive; case_decide; try done.
    apply list_elem_of_here.
  - intros Hlive Hnd (hd & Hhd%head_elem_of & Ho & Hdead)%current_offsets_elem.
    assert (Hsame : hd = mkEventRef event (Some (on_event_ready_of (id (self w))))
                                    (mkMessageTag (id (self w)) o)).
    { apply (offsets_NoDup_inj (_dirty_events (self w'))); trivial.
      rewrite Hdirty, !elem_of_app. right. right. apply list_elem_of_here. }
    subst hd. apply deref_None in Hdead. by apply Hdead.
Qed.

Lemma tracked_offset_scanned_at_head_witness :
  let w' := (run_ops ([] ++ Track 1%positive 5 ::
                      [Track 2%positive 6; Reclaim 1%positive]) world_fresh).2 in
  (5 ∈ _current_offsets (live w') (self w')) /\
  (6 ∉ _current_offsets (live w') (self w')).
Proof.
  split.
  - apply (proj1 (tracked_offset_scanned_at_head world_fresh 1%positive 5 []
                    [Track 2%positive 6; Reclaim 1%positive]));
      try reflexivity; compute_done.
  - apply (proj2 (tracked_offset_scanned_at_head world_fresh 2%positive 6
                    [Track 1%positive 5] [Reclaim 1%positive]));
      compute_done.
Defined.

(** A consumer whose only tracked event, at offset 5, is reclaimed, on a
    backend whose first commit fails and whose later ones succeed. *)
Definition world_flaky : World (nat * list Z) :=
  mkWorld (demo_consumer [demo_ref 1%positive 5]) ∅ 0%Q [] (1%nat, []).

(** The first commit raises: the task ends with that error and the two
    later cycles never run, although the backend would have accepted a
    second attempt. *)
Lemma failed_commit_ends_the_task :
  let out := _commit_handler [[]; []; []] world_flaky in
  out.1 = Raise (BackendError "unreachable broker") /\
  commit_calls (trace out.2) = [5] /\
  backend out.2 = (0%nat, []) /\
  now out.2 = 0%Q.
Proof. repeat split. Qed.

(** C5, amended: when the call of [_commit] raises during a wake, the
    error is not caught in the task: it leaves [_commit_handler], the task
    ends in the state the failed call left, and no later cycle scans or
    commits. *)
Theorem commit_error_ends_task {B : Type} `{Backend B}
    (w : World B) (others : list Op) (rest : list (list Op)) (o : Z) (e : exn) :
  last (_current_offsets (live w) (self w)) = Some o ->
  (_commit o (backend w)).1 = Raise e ->
  _commit_handler (others :: rest) w = (Raise e, after_commit_call o w).
Proof.
  intros Hlast Hraise.
  unfold _commit_handler, sleep_not_awaited, bind, gets, ret. simpl.
  unfold bind. by rewrite (wake_raises others o e w Hlast Hraise).
Qed.

Lemma commit_error_ends_task_witness :
  _commit_handler [[]; []; []] world_flaky =
  (Raise (BackendError "unreachable broker"), after_commit_call 5 world_flaky).
Proof.
  apply (commit_error_ends_task world_flaky [] [[]; []] 5
           (BackendError "unreachable broker")); reflexivity.
Defined.

(** The commit task as the specification words it: the first check comes
    one [commit_interval] after the task was scheduled. *)
Definition spec_commit_handler {B : Type} `{Backend B}
    (first : list Op) (schedule : list (list Op)) : M (World B) unit :=
  interval <- gets (fun w => commit_interval (self w));;
  await_sleep interval first;;
  commit_loop schedule.

(** A consumer started at time 0 whose only tracked event, at offset 5, is
    already reclaimed, on a recording backend. *)
Definition world_started : World (list Z) :=
  mkWorld (demo_consumer [demo_ref 1%positive 5]) ∅ 0%Q [] [].

(** C6: the sleep before the loop is not awaited, so the task goes
    straight into its first cycle: started at time 0 with an interval of
    30, it commits at time 0, where the task of the specification commits
    at time 30. *)
Theorem first_commit_check_not_delayed :
  (forall (B : Type) (backend_commit : Backend B)
          (schedule : list (list Op)) (w : World B),
      register_timers schedule w = commit_loop schedule w) /\
  commit_interval (self world_started) = 30 # 1 /\
  now world_started = 0%Q /\
  trace (register_timers [[]] world_started).2 =
    [(0%Q, Print (COMMITTING 5)); (0%Q, Call_commit 5)] /\
  trace (spec_commit_handler [] [[]] world_started).2 =
    [(30 # 1, Print (COMMITTING 5)); (30 # 1, Call_commit 5)].
Proof.
  split; [|repeat split].
  intros B backend_commit schedule w.
  unfold register_timers, _commit_handler, sleep_not_awaited, bind, gets, ret.
  reflexivity.
Qed.

(** C9: [on_event_ready(ref)] prints the acknowledgment of [ref]'s tag and
    changes nothing else (the consumer, its dirty list, the backend and
    the commits made so far are as before); [track_event] appends one
    entry tagged with the consumer's id and the offset to the tail; and
    over any run of the other tasks the dirty list is the old one followed
    by the entries of the tracking calls, while reclamation and a wake of
    the commit task alone leave it as it is. *)
Theorem dirty_events_grow_only_by_track_event {B : Type} `{Backend B}
    (w : World B) (ref : EventRef) (event : Event) (o : Z) (ops : list Op) :
  on_event_ready ref w =
    (Ok tt, mkWorld (self w) (live w) (now w)
                    (trace w ++ [(now w, Print (ACKED_MESSAGE (tag ref)))])
                    (backend w)) /\
  commit_calls (trace (on_event_ready ref w).2) = commit_calls (trace w) /\
  _dirty_events (self (track_event event o w).2) =
    _dirty_events (self w) ++
    [mkEventRef event (Some (on_event_ready_of (id (self w))))
                (mkMessageTag (id (self w)) o)] /\
  _dirty_events (self (reclaim event w).2) = _dirty_events (self w) /\
  _dirty_events (self (wake [] w).2) = _dirty_events (self w) /\
  _dirty_events (self (run_ops ops w).2) =
    _dirty_events (self w) ++ tracked_refs (id (self w)) ops.
Proof.
  repeat split.
  - unfold on_event_ready, print, emit, modify. simpl.
    rewrite commit_calls_app. simpl. by rewrite app_nil_r.
  - by rewrite reclaim_self.
  - unfold wake, bind, gets.
    destruct (last (_current_offsets (live w) (self w))) as [o'|]; simpl.
    + unfold await_commit, emit, bind, modify. simpl.
      by destruct (_commit o' (backend w)) as [[[]|e] b].
    + trivial.
  - apply run_ops_dirty.
Qed.

(** ** Construction *)

(** A descriptor specifies a field when the field is true in Python's
    sense. *)
Definition topics_only (t : Topic) : Prop :=
  truthy_topics (topics t) = true /\ truthy_pattern (pattern t) = false.

Definition pattern_only (t : Topic) : Prop :=
  truthy_topics (topics t) = false /\ truthy_pattern (pattern t) = true.

Definition both_set (t : Topic) : Prop :=
  truthy_topics (topics t) = true /\ truthy_pattern (pattern t) = true.

Definition either_or_error : exn :=
  TypeError "Topic can specify either topics or pattern".

Definition topic_orders : Topic := mkTopic (Some ["orders"%string]) None.
Definition topic_pattern : Topic := mkTopic None (Some "ord.*"%string).
Definition topic_both : Topic :=
  mkTopic (Some ["orders"%string]) (Some "ord.*"%string).

Lemma init_ok (tr : Transport) (t : Topic) (cb : ConsumerCallback) (c : Z) :
  truthy_topics (topics t) && truthy_pattern (pattern t) = false ->
  Consumer__init__ tr (Some t) (Some cb) c =
  (Ok (mkConsumer c tr cb t [] (30 # 1) (loop tr)), c + 1).
Proof.
  intros Hb. unfold Consumer__init__, bind, ret, next_consumer_id.
  by rewrite Hb.
Qed.

Lemma init_both (tr : Transport) (t : Topic) (cb : ConsumerCallback) (c : Z) :
  both_set t ->
  Consumer__init__ tr (Some t) (Some cb) c = (Raise either_or_error, c + 1).
Proof.
  intros [Ht Hp]. unfold Consumer__init__, bind, ret, next_consumer_id.
  by rewrite Ht, Hp.
Qed.

(** Every construction, whatever its arguments, leaves the counter where
    it was or one further, and a built consumer holds the value the
    counter had. *)
Lemma init_counter (tr : Transport) (tp : option Topic)
    (cb : option ConsumerCallback) (c : Z) :
  match Consumer__init__ tr tp cb c with
  | (Ok consumer, c') => id consumer = c /\ c' = c + 1
  | (Raise _, c') => c <= c' <= c + 1
  end.
Proof.
  unfold Consumer__init__, bind, ret, raise, next_consumer_id.
  destruct cb as [cb|]; simpl; [|lia].
  destruct tp as [t|]; simpl; [|lia].
  destruct (truthy_topics (topics t) && truthy_pattern (pattern t));
    simpl; [lia|done].
Qed.

(** The construction with both fields set raises, and the counter it was
    run from, 7, is 8 afterwards. *)
Lemma failed_construction_moves_counter :
  Consumer__init__ demo_transport (Some topic_both) (Some 0%nat) 7 =
    (Raise either_or_error, 8) /\
  (Consumer__init__ demo_transport (Some topic_both) (Some 0%nat) 7).2 <> 7.
Proof. split; [reflexivity | discriminate]. Qed.

(** C7, amended: with a callback given, construction succeeds for every
    descriptor that specifies only topics or only a pattern, and raises
    the error (a [TypeError]) for every descriptor that specifies both;
    the failed construction makes no consumer and leaves one lasting
    effect, the shared id counter moved on by one. *)
Theorem construction_by_descriptor
    (tr : Transport) (t : Topic) (cb : ConsumerCallback) (c : Z) :
  (topics_only t \/ pattern_only t ->
   exists consumer,
     Consumer__init__ tr (Some t) (Some cb) c = (Ok consumer, c + 1) /\
     id consumer = c /\ topic consumer = t /\ transport consumer = tr /\
     callback consumer = cb /\ _dirty_events consumer = []) /\
  (both_set t ->
   Consumer__init__ tr (Some t) (Some cb) c = (Raise either_or_error, c + 1)).
Proof.
  split.
  - intros Hvalid. eexists. split; [apply init_ok|done].
    destruct Hvalid as [[-> ->]|[-> ->]]; reflexivity.
  - apply init_both.
Qed.

Lemma construction_by_descriptor_witness :
  (exists consumer,
     Consumer__init__ demo_transport (Some topic_orders) (Some 0%nat) 0 =
       (Ok consumer, 0 + 1) /\
     id consumer = 0 /\ topic consumer = topic_orders /\
     transport consumer = demo_transport /\
     callback consumer = 0%nat /\ _dirty_events consumer = []) /\
  (exists consumer,
     Consumer__init__ demo_transport (Some topic_pattern) (Some 0%nat) 1 =
       (Ok consumer, 1 + 1) /\
     id consumer = 1 /\ topic consumer = topic_pattern /\
     transport consumer = demo_transport /\
     callback consumer = 0%nat /\ _dirty_events consumer = []) /\
  Consumer__init__ demo_transport (Some topic_both) (Some 0%nat) 2 =
    (Raise either_or_error, 2 + 1).
Proof.
  split; [|split].
  - apply (proj1 (construction_by_descriptor demo_transport topic_orders 0%nat 0)).
    left. split; reflexivity.
  - apply (proj1 (construction_by_descriptor demo_transport topic_pattern 0%nat 1)).
    right. split; reflexivity.
  - apply (proj2 (construction_by_descriptor demo_transport topic_both 0%nat 2)).
    split; reflexivity.
Defined.

Lemma construct_all_ids (reqs : list request) (c : Z) :
  c <= (construct_all reqs c).2 /\
  Forall (fun i => c <= i < (construct_all reqs c).2)
         (id <$> (construct_all reqs c).1) /\
  StronglySorted Z.lt (id <$> (construct_all reqs c).1).
Proof.
  revert c. induction reqs as [|[[tr tp] cb] reqs IH]; intros c; simpl.
  - split; [lia|]. split; constructor.
  - unfold create_consumer.
    pose proof (init_counter tr tp cb c) as Hinit.
    destruct (Consumer__init__ tr tp cb c) as [[consumer|e] c'].
    + destruct Hinit as [Hid ->].
      destruct (IH (c + 1)) as (Hle & Hall & Hsorted).
      destruct (construct_all reqs (c + 1)) as [cs c''].
      simpl in *. split; [lia|]. split.
      * constructor; [lia|].
        eapply Forall_impl; [exact Hall|]. simpl. intros i Hi. lia.
      * constructor; trivial.
        eapply Forall_impl; [exact Hall|]. simpl. intros i Hi. lia.
    + destruct (IH c') as (Hle & Hall & Hsorted).
      split; [lia|]. split; trivial.
      eapply Forall_impl; [exact Hall|]. simpl. intros i Hi. lia.
Qed.

Lemma increasing_NoDup (l : list Z) : StronglySorted Z.lt l -> NoDup l.
Proof.
  induction 1 as [|x l Hsorted IH Hall]; constructor; trivial.
  intros Hin. rewrite Forall_forall in Hall.
  specialize (Hall x Hin). lia.
Qed.

(** C8: over any sequence of constructions served by the one counter,
    whichever transports ask for them and whether or not some of them
    fail, the ids of the consumers built are pairwise distinct and
    strictly increasing in the order of construction. *)
Theorem consumer_ids_strictly_increasing (reqs : list request) (c : Z) :
  StronglySorted Z.lt (id <$> (construct_all reqs c).1) /\
  NoDup (id <$> (construct_all reqs c).1) /\
  (forall i j a b,
     (construct_all reqs c).1 !! i = Some a ->
     (construct_all reqs c).1 !! j = Some b ->
     (i < j)%nat -> id a < id b).
Proof.
  destruct (construct_all_ids reqs c) as (_ & _ & Hsorted).
  split; [exact Hsorted|]. split; [by apply increasing_NoDup|].
  intros i j a b Ha Hb Hij.
  revert Hsorted i j a b Ha Hb Hij.
  generalize (construct_all reqs c).1 as cs.
  induction cs as [|x cs IH]; intros Hsorted i j a b Ha Hb Hij.
  - discriminate.
  - rewrite fmap_cons in Hsorted.
    apply StronglySorted_inv in Hsorted as [Hsorted Hall].
    destruct j as [|j]; [lia|]. simpl in Hb.
    destruct i as [|i]; simpl in Ha.
    + injection Ha as ->. rewrite Forall_forall in Hall. apply Hall.
      apply (list_elem_of_fmap_2 id). by eapply list_elem_of_lookup_2.
    + apply (IH Hsorted i j); trivial. lia.
Qed.

(** C10: a construction that fails because the descriptor sets both fields
    has drawn the counter's value [c] before raising and leaves the
    counter at [c + 1]; a consumer built next gets an id above [c]. *)
Theorem failed_construction_consumes_an_id
    (tr tr' : Transport) (t : Topic) (tp' : option Topic)
    (cb : ConsumerCallback) (cb' : option ConsumerCallback)
    (c c' : Z) (next : Consumer) :
  both_set t ->
  Consumer__init__ tr' tp' cb'
    (Consumer__init__ tr (Some t) (Some cb) c).2 = (Ok next, c') ->
  Consumer__init__ tr (Some t) (Some cb) c = (Raise either_or_error, c + 1) /\
  id next = c + 1 /\ c < id next /\ c' = c + 2.
Proof.
  intros Hboth Hnext. rewrite (init_both tr t cb c Hboth) in Hnext |- *.
  simpl in Hnext. pose proof (init_counter tr' tp' cb' (c + 1)) as Hinit.
  rewrite Hnext in Hinit. destruct Hinit as [-> ->].
  repeat split; lia.
Qed.

Lemma failed_construction_consumes_an_id_witness :
  Consumer__init__ demo_transport (Some topic_both) (Some 0%nat) 0 =
    (Raise either_or_error, 0 + 1) /\
  id (mkConsumer 1 demo_transport 0%nat topic_orders [] (30 # 1) None) = 0 + 1 /\
  0 < id (mkConsumer 1 demo_transport 0%nat topic_orders [] (30 # 1) None) /\
  2 = 0 + 2.
Proof.
  apply (failed_construction_consumes_an_id demo_transport demo_transport
           topic_both (Some topic_orders) 0%nat (Some 0%nat) 0 2
           (mkConsumer 1 demo_transport 0%nat topic_orders [] (30 # 1) None)).
  - split; reflexivity.
  - reflexivity.
Defined.


(** * Further properties of the transport *)

(** ** Whole runs of the commit task *)

Section Runs.
Context {B : Type} `{Backend B}.

(** What every step, of the commit task or of the other tasks, keeps of
    the consumer: its identity and interval, the dirty list as a prefix,
    and the dead events dead. *)
Record grows (w w' : World B) : Prop := mkGrows {
  grows_id : id (self w') = id (self w);
  grows_interval : commit_interval (self w') = commit_interval (self w);
  grows_dirty : exists post,
      _dirty_events (self w') = _dirty_events (self w) ++ post;
  grows_live : live w' ⊆ live w
}.

Lemma grows_refl (w : World B) : grows w w.
Proof. split; trivial. exists []. by rewrite app_nil_r. Qed.

Lemma grows_trans (w1 w2 w3 : World B) :
  grows w1 w2 -> grows w2 w3 -> grows w1 w3.
Proof.
  intros [Hi Hc [p Hd] Hl] [Hi' Hc' [p' Hd'] Hl'].
  split; try congruence.
  - exists (p ++ p'). rewrite Hd', Hd. by rewrite app_assoc.
  - by transitivity (live w2).
Qed.

Lemma others_step_grows (w w' : World B) : others_step w w' -> grows w w'.
Proof. intros [Hi Hc Hd Hl _ _ _]. by split. Qed.

Lemma await_sleep_grows (delay : Q) (others : list Op) (w : World B) :
  grows w (await_sleep delay others w).2.
Proof.
  unfold await_sleep, bind, modify.
  match goal with |- context [run_ops others ?w1] =>
    destruct (run_ops_step others w1) as [_ Hstep] end.
  apply others_step_grows in Hstep. destruct Hstep as [Hi Hc Hd Hl].
  by split.
Qed.

Lemma after_commit_call_grows (o : Z) (w : World B) :
  grows w (after_commit_call o w).
Proof. split; simpl; trivial. exists []. by rewrite app_nil_r. Qed.

(** The three ways a wake can go. *)
Lemma wake_cases (others : list Op) (w : World B) :
  (exists o e, last (_current_offsets (live w) (self w)) = Some o /\
               (_commit o (backend w)).1 = Raise e /\
               wake others w = (Raise e, after_commit_call o w)) \/
  (exists o, last (_current_offsets (live w) (self w)) = Some o /\
             (_commit o (backend w)).1 = Ok tt /\
             wake others w =
             await_sleep (commit_interval (self w)) others
                         (after_commit_call o w)) \/
  (last (_current_offsets (live w) (self w)) = None /\
   wake others w = await_sleep (commit_interval (self w)) others w).
Proof.
  destruct (last (_current_offsets (live w) (self w))) as [o|] eqn:Hlast.
  - destruct (_commit o (backend w)).1 as [[]|e] eqn:Hres.
    + right. left. exists o. by rewrite (wake_commits others o w Hlast Hres).
    + left. exists o, e. by rewrite (wake_raises others o e w Hlast Hres).
  - right. right. by rewrite (wake_idle others w Hlast).
Qed.

Lemma wake_grows (others : list Op) (w : World B) :
  grows w (wake others w).2.
Proof.
  destruct (wake_cases others w)
    as [(o & e & _ & _ & ->)|[(o & _ & _ & ->)|(_ & ->)]].
  - apply after_commit_call_grows.
  - eapply grows_trans; [apply after_commit_call_grows|].
    apply await_sleep_grows.
  - apply await_sleep_grows.
Qed.

Lemma commit_loop_grows (schedule : list (list Op)) (w : World B) :
  grows w (commit_loop schedule w).2.
Proof.
  revert w. induction schedule as [|others rest IH]; intros w.
  - apply grows_refl.
  - simpl. unfold bind. pose proof (wake_grows others w) as Hwake.
    destruct (wake others w) as [[[]|e] w1]; simpl in *; trivial.
    eapply grows_trans; [exact Hwake|apply IH].
Qed.

Lemma grows_head (w w' : World B) (ref : EventRef) :
  grows w w' ->
  head (_dirty_events (self w)) = Some ref ->
  head (_dirty_events (self w')) = Some ref.
Proof.
  intros [_ _ [post ->] _] [rest ->]%head_Some. reflexivity.
Qed.

(** The last (and only) element of the scan, read off the head entry. *)
Lemma last_scan_of_head (live0 : gset Event) (c : Consumer) (ref : EventRef) :
  head (_dirty_events c) = Some ref ->
  last (_current_offsets live0 c) =
  if decide (referent ref ∈ live0) then None else Some (offset (tag ref)).
Proof.
  intros [rest Hd]%head_Some.
  rewrite current_offsets_unfold, Hd. unfold deref. by case_decide.
Qed.

End Runs.









#[export] Instance Op_eq_dec : EqDecision Op.
Proof. solve_decision. Defined.

Section Liveness.
Context {B : Type} `{Backend B}.

Lemma call_each_live (refs : list EventRef) (w : World B) :
  live (call_each refs w).2 = live w.
Proof.
  revert w. induction refs as [|ref refs IH]; intros w; trivial.
  simpl. unfold bind.
  destruct (ref_callback ref) as [[c]|]; simpl; by rewrite IH.
Qed.

Lemma reclaim_live (event x : Event) (w : World B) :
  x ∈ live (reclaim event w).2 <-> x ∈ live w /\ x <> event.
Proof.
  unfold reclaim, bind, gets, modify. simpl.
  destruct (bool_decide (event ∈ live w)) eqn:Hlive.
  - match goal with |- context [call_each ?refs ?w1] =>
      pose proof (call_each_live refs w1) as Hl;
      destruct (call_each refs w1) as [[] w2] end; simpl in *; rewrite Hl;
      rewrite elem_of_difference, elem_of_singleton; tauto.
  - apply bool_decide_eq_false in Hlive. simpl. split; [|tauto].
    intros Hx. split; trivial. congruence.
Qed.

Lemma run_ops_live (ops : list Op) (x : Event) (w : World B) :
  x ∈ live (run_ops ops w).2 <-> x ∈ live w /\ Reclaim x ∉ ops.
Proof.
  revert w. induction ops as [|op ops IH]; intros w.
  - simpl. split; [|tauto]. intros Hx. split; trivial. apply not_elem_of_nil.
  - simpl. unfold bind.
    destruct (run_op_step op w) as [Hok _].
    destruct (run_op op w) as [r w1] eqn:Hrun. simpl in Hok. subst r.
    rewrite IH, not_elem_of_cons.
    destruct op as [event o|event]; simpl in Hrun.
    + injection Hrun as <-. simpl. split.
      * intros [Hx Hno]. repeat split; trivial. discriminate.
      * tauto.
    + pose proof (reclaim_live event x w) as Hl. rewrite Hrun in Hl.
      simpl in Hl. rewrite Hl. split.
      * intros [[Hx Hne] Hno]. repeat split; trivial. congruence.
      * intros [Hx [Hne Hno]]. repeat split; trivial. congruence.
Qed.

Lemma await_sleep_live (delay : Q) (others : list Op) (x : Event) (w : World B) :
  x ∈ live (await_sleep delay others w).2 <-> x ∈ live w /\ Reclaim x ∉ others.
Proof.
  unfold await_sleep, bind, modify.
  match goal with |- context [run_ops others ?w1] =>
    pose proof (run_ops_live others x w1) as Hl;
    destruct (run_ops_step others w1) as [Hok _];
    destruct (run_ops others w1) as [r w2] end.
  simpl in *. subst r. exact Hl.
Qed.

Lemma grows_scan (w w' : World B) (o : Z) :
  grows w w' ->
  o ∈ _current_offsets (live w) (self w) ->
  _current_offsets (live w') (self w') = [o].
Proof.
  intros Hgrows (ref & Hhead & Ho & Hdead)%current_offsets_elem.
  pose proof (grows_head _ _ _ Hgrows Hhead) as [rest Hd]%head_Some.
  rewrite current_offsets_unfold, Hd.
  apply deref_None in Hdead.
  assert (Hdead' : deref (live w') ref = None).
  { apply deref_None. intros Hin. apply Hdead.
    by apply (grows_live _ _ Hgrows). }
  by rewrite Hdead', Ho.
Qed.

End Liveness.

(** While the oldest tracked event is alive nothing is committed, however
    many cycles pass and whatever is tracked or reclaimed behind it: the
    task keeps running and the backend is never called. *)
Theorem live_head_blocks_commits {B : Type} `{Backend B}
    (schedule : list (list Op)) (w : World B) (ref : EventRef) :
  head (_dirty_events (self w)) = Some ref ->
  referent ref ∈ live w ->
  (forall others, others ∈ schedule -> Reclaim (referent ref) ∉ others) ->
  (commit_loop schedule w).1 = Ok tt /\
  commit_calls (trace (commit_loop schedule w).2) = commit_calls (trace w) /\
  backend (commit_loop schedule w).2 = backend w.
Proof.
  revert w. induction schedule as [|others rest IH]; intros w Hhead Hlive Hno.
  - by repeat split.
  - simpl. unfold bind.
    pose proof (wake_grows others w) as Hgrows.
    pose proof (last_scan_of_head (live w) (self w) ref Hhead) as Hlast.
    rewrite decide_True in Hlast by done.
    rewrite (wake_idle others w Hlast) in Hgrows |- *.
    destruct (await_sleep_step (commit_interval (self w)) others w)
      as (Hok & _ & Hcalls & Hbackend).
    assert (Hlive1 : referent ref ∈
              live (await_sleep (commit_interval (self w)) others w).2).
    { apply await_sleep_live. split; trivial.
      apply Hno, list_elem_of_here. }
    destruct (await_sleep (commit_interval (self w)) others w) as [r w1].
    simpl in *. subst r.
    destruct (IH w1 (grows_head _ _ _ Hgrows Hhead) Hlive1)
      as (Hres & Hc & Hb).
    { intros others' Hin. apply Hno. by apply list_elem_of_further. }
    repeat split; trivial; congruence.
Qed.

Lemma live_head_blocks_commits_witness :
  (commit_loop [[Reclaim 2%positive]; [Reclaim 3%positive]]
     (mkWorld (demo_consumer dirty_567)
              {[1%positive; 2%positive; 3%positive]} 0%Q [] [])).1 = Ok tt /\
  commit_calls
    (trace (commit_loop [[Reclaim 2%positive]; [Reclaim 3%positive]]
              (mkWorld (demo_consumer dirty_567)
                       {[1%positive; 2%positive; 3%positive]} 0%Q [] [])).2) =
    commit_calls [] /\
  backend (commit_loop [[Reclaim 2%positive]; [Reclaim 3%positive]]
             (mkWorld (demo_consumer dirty_567)
                      {[1%positive; 2%positive; 3%positive]} 0%Q [] [])).2 = [].
Proof.
  apply (live_head_blocks_commits
           [[Reclaim 2%positive]; [Reclaim 3%positive]]
           (mkWorld (demo_consumer dirty_567)
                    {[1%positive; 2%positive; 3%positive]} 0%Q [] [])
           (demo_ref 1%positive 5)).
  - reflexivity.
  - compute_done.
  - intros others Hin.
    apply elem_of_cons in Hin as [->|Hin]; [compute_done|].
    apply list_elem_of_singleton in Hin as ->. compute_done.
Defined.

(** Once the scan yields an offset it yields that same single offset ever
    after, whatever is tracked or reclaimed and however many cycles the
    commit task runs: the committable position never moves forward. *)
Theorem scan_never_advances {B : Type} `{Backend B}
    (w : World B) (o : Z) (ops : list Op) (schedule : list (list Op)) :
  o ∈ _current_offsets (live w) (self w) ->
  _current_offsets (live (run_ops ops w).2) (self (run_ops ops w).2) = [o] /\
  _current_offsets (live (commit_loop schedule w).2)
                   (self (commit_loop schedule w).2) = [o].
Proof.
  intros Hin. split.
  - apply (grows_scan w); trivial.
    apply others_step_grows. by destruct (run_ops_step ops w).
  - apply (grows_scan w); trivial. apply commit_loop_grows.
Qed.

Lemma scan_never_advances_witness :
  _current_offsets
    (live (run_ops [Reclaim 2%positive; Reclaim 3%positive] world_567).2)
    (self (run_ops [Reclaim 2%positive; Reclaim 3%positive] world_567).2) = [5] /\
  _current_offsets
    (live (commit_loop [[Reclaim 2%positive]; [Reclaim 3%positive]] world_567).2)
    (self (commit_loop [[Reclaim 2%positive]; [Reclaim 3%positive]] world_567).2)
    = [5].
Proof.
  apply (scan_never_advances world_567 5).
  vm_compute. apply list_elem_of_here.
Defined.

(** The acknowledgments printed at time [t] for the references that carry
    a callback. *)
Definition acks (t : Q) (refs : list EventRef) : list (Q * Effect) :=
  omap (fun ref => match ref_callback ref with
                   | Some _ => Some (t, Print (ACKED_MESSAGE (tag ref)))
                   | None => None
                   end) refs.

Lemma call_each_trace {B : Type} `{Backend B}
    (refs : list EventRef) (w : World B) :
  trace (call_each refs w).2 = trace w ++ acks (now w) refs.
Proof.
  revert w. induction refs as [|ref refs IH]; intros w.
  - simpl. by rewrite app_nil_r.
  - simpl. unfold bind, acks.
    destruct (ref_callback ref) as [[c]|]; simpl.
    + rewrite IH. simpl. by rewrite <- app_assoc.
    + by rewrite IH.
Qed.

(** Reclaiming a live event acknowledges each entry that tracks it, once,
    the most recently tracked first; reclaiming an event that is already
    gone changes nothing, so no entry is acknowledged twice. *)
Theorem reclaim_acknowledges_once {B : Type} `{Backend B}
    (event : Event) (w : World B) :
  trace (reclaim event w).2 =
    trace w ++
    (if decide (event ∈ live w)
     then acks (now w) (rev (filter (fun ref => referent ref = event)
                                    (_dirty_events (self w))))
     else []) /\
  reclaim event (reclaim event w).2 = (Ok tt, (reclaim event w).2).
Proof.
  split.
  - unfold reclaim, bind, gets, modify. simpl.
    destruct (decide (event ∈ live w)) as [Hin|Hout].
    + rewrite bool_decide_eq_true_2 by done.
      match goal with |- context [call_each ?refs ?w1] =>
        pose proof (call_each_trace refs w1) as Ht;
        destruct (call_each refs w1) as [[] w2] end; exact Ht.
    + rewrite bool_decide_eq_false_2 by done. simpl. by rewrite app_nil_r.
  - assert (Hgone : event ∉ live (reclaim event w).2).
    { rewrite reclaim_live. tauto. }
    generalize dependent (reclaim event w).2. intros w' Hgone.
    unfold reclaim, bind, gets. simpl.
    by rewrite bool_decide_eq_false_2 by done.
Qed.

(** ** Outcomes of construction *)

Definition has_callback (r : request) : bool :=
  match r with
  | (_, _, Some _) => true
  | (_, _, None) => false
  end.

Definition well_formed (r : request) : bool :=
  match r with
  | (_, Some t, Some _) =>
      negb (truthy_topics (topics t) && truthy_pattern (pattern t))
  | _ => false
  end.

(** Construction succeeds exactly when a callback and a descriptor are
    given and the descriptor does not set both fields (one that sets
    neither is accepted); the id counter is left untouched exactly when
    the callback is missing, the failed assertion coming before the draw
    of the id, while a missing descriptor fails after it. *)
Theorem construction_outcomes
    (tr : Transport) (tp : option Topic) (cb : option ConsumerCallback) (c : Z) :
  ((exists consumer c', Consumer__init__ tr tp cb c = (Ok consumer, c')) <->
   well_formed (tr, tp, cb) = true) /\
  ((Consumer__init__ tr tp cb c).2 = c <-> cb = None) /\
  ((Consumer__init__ tr tp cb c).1 = Raise AssertionError <-> cb = None) /\
  ((Consumer__init__ tr tp cb c).1 = Raise AttributeError <->
   is_Some cb /\ tp = None) /\
  (forall f,
     Consumer__init__ tr (Some (mkTopic None None)) (Some f) c =
     (Ok (mkConsumer c tr f (mkTopic None None) [] (30 # 1) (loop tr)), c + 1)).
Proof.
  unfold Consumer__init__, bind, ret, raise, next_consumer_id, well_formed.
  destruct cb as [f|], tp as [t|];
    try destruct (truthy_topics (topics t) && truthy_pattern (pattern t));
    simpl; repeat split; intros;
    repeat match goal with
           | Hx : exists _, _ |- _ => destruct Hx
           | Hx : _ /\ _ |- _ => destruct Hx
           | Hx : is_Some None |- _ => by destruct Hx
           end;
    try done; try lia; try (by eexists _, _); by eexists.
Qed.

Lemma construct_all_cons_ok (tr : Transport) (tp : option Topic)
    (cb : option ConsumerCallback) (rest : list request) (c : Z) :
  well_formed (tr, tp, cb) = true ->
  exists consumer,
    id consumer = c /\
    construct_all (((tr, tp, cb) : request) :: rest) c =
    (consumer :: (construct_all rest (c + 1)).1, (construct_all rest (c + 1)).2).
Proof.
  intros Hwf. simpl. unfold create_consumer.
  destruct tp as [t|], cb as [f|]; try discriminate.
  simpl in Hwf. apply negb_true_iff in Hwf.
  rewrite (init_ok tr t f c Hwf).
  exists (mkConsumer c tr f t [] (30 # 1) (loop tr)). split; [reflexivity|].
  by destruct (construct_all rest (c + 1)).
Qed.

Lemma construct_all_cons_fail (tr : Transport) (tp : option Topic)
    (cb : option ConsumerCallback) (rest : list request) (c : Z) :
  well_formed (tr, tp, cb) = false ->
  construct_all (((tr, tp, cb) : request) :: rest) c =
  construct_all rest (if has_callback (tr, tp, cb) then c + 1 else c).
Proof.
  intros Hwf. simpl. unfold create_consumer.
  unfold Consumer__init__, bind, ret, raise, next_consumer_id.
  destruct cb as [f|]; simpl; trivial.
  destruct tp as [t|]; simpl; trivial.
  simpl in Hwf. apply negb_false_iff in Hwf. by rewrite Hwf.
Qed.

(** Over a sequence of constructions the counter moves on once for every
    request that comes with a callback, failed ones included; one consumer
    is built per well-formed request, and every id handed out lies between
    the counter's first and last value. *)
Theorem construct_all_counter (reqs : list request) (c : Z) :
  (construct_all reqs c).2 =
    c + Z.of_nat (length (List.filter has_callback reqs)) /\
  length (construct_all reqs c).1 = length (List.filter well_formed reqs) /\
  Forall (fun consumer => c <= id consumer < (construct_all reqs c).2)
         (construct_all reqs c).1.
Proof.
  revert c. induction reqs as [|[[tr tp] cb] reqs IH]; intros c.
  - simpl. repeat split; [lia|constructor].
  - cbn [List.filter].
    destruct (well_formed (tr, tp, cb)) eqn:Hwf.
    + destruct (construct_all_cons_ok tr tp cb reqs c Hwf)
        as (consumer & Hid & ->).
      assert (Hcb : has_callback (tr, tp, cb) = true).
      { by destruct tp, cb. }
      rewrite Hcb. destruct (IH (c + 1)) as (Hc & Hlen & Hall).
      cbn [fst snd length]. repeat split.
      * rewrite Hc. lia.
      * by rewrite Hlen.
      * constructor; [lia|].
        eapply Forall_impl; [exact Hall|]. simpl. intros x Hx. lia.
    + rewrite (construct_all_cons_fail tr tp cb reqs c Hwf).
      destruct (has_callback (tr, tp, cb)).
      * destruct (IH (c + 1)) as (Hc & Hlen & Hall).
        cbn [length]. repeat split; trivial; [lia|].
        eapply Forall_impl; [exact Hall|]. simpl. intros x Hx. lia.
      * apply IH.
Qed.

(** When no construction of the sequence fails the ids are consecutive:
    the n consumers built from counter c hold c, c + 1, ..., c + n - 1,
    in the order of construction. *)
Theorem construct_all_consecutive (reqs : list request) (c : Z) :
  forallb well_formed reqs = true ->
  id <$> (construct_all reqs c).1 = seqZ c (Z.of_nat (length reqs)) /\
  (construct_all reqs c).2 = c + Z.of_nat (length reqs).
Proof.
  revert c. induction reqs as [|[[tr tp] cb] reqs IH]; intros c Hall.
  - simpl. split; [reflexivity|lia].
  - cbn [forallb] in Hall. apply andb_true_iff in Hall as [Hwf Hall].
    destruct (construct_all_cons_ok tr tp cb reqs c Hwf)
      as (consumer & Hid & ->).
    destruct (IH (c + 1) Hall) as [Hids Hc].
    cbn [fst snd length]. split.
    + rewrite fmap_cons, Hids, Hid, Nat2Z.inj_succ.
      rewrite (seqZ_cons c) by lia. by rewrite Z.pred_succ.
    + rewrite Hc. lia.
Qed.

Lemma construct_all_consecutive_witness :
  id <$> (construct_all [(demo_transport, Some topic_orders, Some 0%nat);
                         (demo_transport, Some topic_pattern, Some 1%nat);
                         (demo_transport, Some topic_orders, Some 2%nat)] 4).1 =
    seqZ 4 (Z.of_nat 3) /\
  (construct_all [(demo_transport, Some topic_orders, Some 0%nat);
                  (demo_transport, Some topic_pattern, Some 1%nat);
                  (demo_transport, Some topic_orders, Some 2%nat)] 4).2 =
    4 + Z.of_nat 3.
Proof.
  apply (construct_all_consecutive
           [(demo_transport, Some topic_orders, Some 0%nat);
            (demo_transport, Some topic_pattern, Some 1%nat);
            (demo_transport, Some topic_orders, Some 2%nat)] 4).
  reflexivity.
Defined.


(** * faust.worker: the terminal spinner of the Worker

    [src/faust/worker.py]: the progress spinner, the logging handler that
    turns it and the two Worker hooks that switch it off. *)

Module Worker.

Local Open Scope nat_scope.

(** ** The spinner *)

(** The stream a spinner writes to: whether it is a terminal, the strings
    printed to it (each with [end='']) and the number of flushes. *)
Record IO : Type := mkIO {
  isatty : bool;
  printed : list string;
  flushes : nat
}.

(** The stream together with the [atexit] registry, counted by the number
    of registrations of [Spinner._finish] for the stream. *)
Record Console : Type := mkConsole {
  file : IO;
  atexit_finish : nat
}.

(** [class Spinner]: the instance attributes besides the stream. *)
Record Spinner : Type := mkSpinner {
  width : nat;
  count : nat
}.

Definition bell : string := String (Ascii.ascii_of_nat 8) EmptyString.
Definition phases : list string := ["-"; "\"; "|"; "/"]%string.
Definition cursor_hide : string := String (Ascii.ascii_of_nat 27) "[?25l".
Definition cursor_show : string := String (Ascii.ascii_of_nat 27) "[?25h".

(** [s * n] *)
Fixpoint string_repeat (s : string) (n : nat) : string :=
  match n with
  | O => EmptyString
  | S n' => s +:+ string_repeat s n'
  end.

(** [s.ljust(w)]: padded with spaces on the right up to [w] characters. *)
Definition ljust (s : string) (w : nat) : string :=
  s +:+ string_repeat " " (w - String.length s).

(** [Spinner.__init__] *)
Definition Spinner__init__ : Spinner := mkSpinner 0 0.

(** [print(s, end='', file=file)] followed by [file.flush()] *)
Definition print_flush (s : string) (f : IO) : IO :=
  mkIO (isatty f) (printed f ++ [s]) (S (flushes f)).

(** [Spinner._print] *)
Definition _print (s : string) (con : Console) : Console :=
  mkConsole (print_flush s (file con)) (atexit_finish con).

(** [Spinner._finish], a class method on the stream alone. *)
Definition _finish (f : IO) : IO := print_flush cursor_show f.

(** [Spinner.finish] *)
Definition finish (con : Console) : Console :=
  mkConsole (_finish (file con)) (atexit_finish con).

(** [Spinner.begin] *)
Definition begin (con : Console) : Console :=
  _print cursor_hide (mkConsole (file con) (S (atexit_finish con))).

(** [Spinner.write]: both statements are under the [isatty] test. *)
Definition write (s : string) (sp : Spinner) (con : Console)
  : Spinner * Console :=
  if isatty (file con)
  then (mkSpinner (Nat.max (width sp) (String.length s)) (count sp),
        _print (string_repeat bell (width sp) +:+ ljust s (width sp)) con)
  else (sp, con).

(** [Spinner.update]; the index is below [len(self.phases)], so the
    default of [nth] is never returned. *)
Definition update (sp : Spinner) (con : Console) : Spinner * Console :=
  let con1 := if Nat.eqb (count sp) 0 then begin con else con in
  let i := count sp mod length phases in
  write (nth i phases EmptyString) (mkSpinner (width sp) (S (count sp))) con1.

(** [n] calls of [update] in a row. *)
Fixpoint updates (n : nat) (sp : Spinner) (con : Console) : Spinner * Console :=
  match n with
  | O => (sp, con)
  | S n' => let '(sp1, con1) := update sp con in updates n' sp1 con1
  end.

(** ** The worker's use of the spinner *)

Inductive HandlerKind : Type := StreamHandler | SpinnerHandler.

(** A logging handler: its class and its level. *)
Record Handler : Type := mkHandler {
  kind : HandlerKind;
  handler_level : Z
}.

(** The root logger as the hook sees it. *)
Record Logger : Type := mkLogger {
  logger_level : Z;
  handlers : list Handler
}.

(** [logging.WARN] and [logging.DEBUG] *)
Definition WARN : Z := 30.
Definition DEBUG : Z := 10.

(** What the worker says besides the spinner's drawing: calls of
    [mode.Worker] that are not in this file. *)
Inductive Said : Type :=
| Blockdetection
| Say (s : string)
| Log_info (s : string).

(** The part of [class Worker] the spinner hooks touch; [spinner] is
    [None] once it has been switched off. *)
Record Worker : Type := mkWorker {
  spinner : option Spinner;
  console : Console;
  said : list Said
}.

(** [Worker.__init__]: [self.spinner = Spinner(file=self.stdout)]. *)
Definition Worker__init__ (stdout : IO) (registered : nat) : Worker :=
  mkWorker (Some Spinner__init__) (mkConsole stdout registered) [].

(** [SpinnerHandler.emit] *)
Definition emit (w : Worker) : Worker :=
  match spinner w with
  | Some sp =>
      let '(sp1, con1) := update sp (console w) in
      mkWorker (Some sp1) con1 (said w)
  | None => w
  end.

Fixpoint emits (n : nat) (w : Worker) : Worker :=
  match n with
  | O => w
  | S n' => emits n' (emit w)
  end.

(** [Worker.on_startup_finished] *)
Definition on_startup_finished (w : Worker) : Worker :=
  let said1 := said w ++ [Blockdetection] in
  match spinner w with
  | Some sp => mkWorker None (finish (console w)) (said1 ++ [Say "ready- ^"])
  | None => mkWorker None (console w) (said1 ++ [Log_info "Ready"])
  end.

Inductive outcome (A : Type) : Type :=
| Done (a : A)
| IndexError.
Arguments Done {A} a.
Arguments IndexError {A}.

(** [Worker.on_setup_root_logger]; [logger.handlers[0]] raises on a logger
    without handlers. *)
Definition on_setup_root_logger (w : Worker) (logger : Logger) (level : Z)
  : outcome (Worker * Logger) :=
  let w1 := if negb (Z.eqb level 0) && Z.ltb level WARN
            then mkWorker None (console w) (said w)
            else w in
  match spinner w1 with
  | Some _ =>
      match handlers logger with
      | [] => IndexError
      | h :: rest =>
          Done (w1, mkLogger DEBUG
                      (mkHandler (kind h) level :: rest ++
                       [mkHandler SpinnerHandler DEBUG]))
      end
  | None => Done (w1, logger)
  end.

(** ** Properties of the spinner *)

Lemma length_append (s1 s2 : string) :
  String.length (s1 +:+ s2) = String.length s1 + String.length s2.
Proof. induction s1 as [|a s1 IH]; simpl; [reflexivity|by rewrite IH]. Qed.

Lemma length_repeat_char (a : Ascii.ascii) (n : nat) :
  String.length (string_repeat (String a EmptyString) n) = n.
Proof.
  induction n as [|n IH]; [reflexivity|].
  cbn [string_repeat]. rewrite length_append, IH. reflexivity.
Qed.

Lemma length_ljust (s : string) (w : nat) :
  String.length (ljust s w) = Nat.max (String.length s) w.
Proof.
  unfold ljust. rewrite length_append, length_repeat_char. lia.
Qed.

(** On a terminal a frame first backs over the widest frame drawn so far
    and then overwrites all of it: the text printed is as long as the old
    width plus the new one, and the width never shrinks. *)
Theorem write_covers_previous_frame (s : string) (sp : Spinner) (con : Console) :
  isatty (file con) = true ->
  exists text : string,
    printed (file (write s sp con).2) = printed (file con) ++ [text] /\
    String.length text = width sp + width (write s sp con).1 /\
    width (write s sp con).1 = Nat.max (width sp) (String.length s) /\
    width sp <= width (write s sp con).1 /\
    count (write s sp con).1 = count sp.
Proof.
  intros Htty. unfold write. rewrite Htty. simpl.
  eexists. split; [reflexivity|].
  unfold bell. rewrite length_append, length_repeat_char, length_ljust.
  repeat split; lia.
Qed.

Definition tty : Console := mkConsole (mkIO true [] 0) 0.
Definition pipe : Console := mkConsole (mkIO false [] 0) 0.

Lemma write_covers_previous_frame_witness :
  exists text : string,
    printed (file (write "ready" (mkSpinner 1 3) tty).2) =
      printed (file tty) ++ [text] /\
    String.length text = 1 + width (write "ready" (mkSpinner 1 3) tty).1 /\
    width (write "ready" (mkSpinner 1 3) tty).1 = Nat.max 1 (String.length "ready") /\
    1 <= width (write "ready" (mkSpinner 1 3) tty).1 /\
    count (write "ready" (mkSpinner 1 3) tty).1 = 3.
Proof.
  apply (write_covers_previous_frame "ready" (mkSpinner 1 3) tty).
  reflexivity.
Defined.

(** The frame of the turn with counter [j], once the spinner has drawn. *)
Definition frame (j : nat) : string := bell +:+ nth (j mod 4) phases EmptyString.

(** What [n] turns of a fresh spinner print: the cursor is hidden at the
    first turn whatever the stream is; frames are drawn on a terminal
    only. *)
Definition drawn (terminal : bool) (n : nat) : list string :=
  match n with
  | O => []
  | S m =>
      cursor_hide ::
      (if terminal then "-"%string :: (frame <$> seq 1 m) else [])
  end.

Lemma update_steady (c : nat) (con : Console) :
  isatty (file con) = true ->
  update (mkSpinner 1 (S c)) con =
  (mkSpinner 1 (S (S c)), _print (frame (S c)) con).
Proof.
  intros Htty. unfold update, write, frame. cbn [count width Nat.eqb].
  rewrite Htty. change (length phases) with 4.
  assert (Hlt : S c mod 4 < 4) by (apply Nat.mod_upper_bound; lia).
  revert Hlt.
  destruct (S c mod 4) as [|[|[|[|i]]]]; intros Hlt; try reflexivity. lia.
Qed.

Ltac fields :=
  repeat match goal with
         | |- (_, _) = (_, _) => f_equal
         | |- mkSpinner _ _ = mkSpinner _ _ => f_equal
         | |- mkConsole _ _ = mkConsole _ _ => f_equal
         | |- mkIO _ _ _ = mkIO _ _ _ => f_equal
         end;
  try reflexivity; try lia.

Lemma updates_steady (n c : nat) (con : Console) :
  isatty (file con) = true ->
  updates n (mkSpinner 1 (S c)) con =
  (mkSpinner 1 (n + S c),
   mkConsole (mkIO true (printed (file con) ++ (frame <$> seq (S c) n))
                   (n + flushes (file con)))
             (atexit_finish con)).
Proof.
  revert c con. induction n as [|n IH]; intros c con Htty.
  - simpl. rewrite app_nil_r. destruct con as [[t p f] a].
    simpl in Htty. by subst t.
  - cbn [updates]. rewrite (update_steady c con Htty).
    rewrite IH by (simpl; exact Htty). simpl.
    rewrite <- app_assoc. fields.
Qed.

Lemma update_pipe (sp : Spinner) (con : Console) :
  isatty (file con) = false ->
  update sp con =
  (mkSpinner (width sp) (S (count sp)),
   if Nat.eqb (count sp) 0 then begin con else con).
Proof.
  intros Htty. unfold update, write.
  destruct (Nat.eqb (count sp) 0); simpl; by rewrite Htty.
Qed.

Lemma updates_pipe (n c : nat) (con : Console) :
  isatty (file con) = false ->
  updates n (mkSpinner 0 (S c)) con = (mkSpinner 0 (n + S c), con).
Proof.
  revert c. induction n as [|n IH]; intros c Htty; [reflexivity|].
  cbn [updates]. rewrite (update_pipe _ con Htty). simpl.
  rewrite IH by done. f_equal. f_equal. lia.
Qed.

(** The state a fresh spinner and its console are in after [n] turns. *)
Lemma updates_fresh (n : nat) (con : Console) :
  updates n Spinner__init__ con =
  (mkSpinner (if isatty (file con) then Nat.min n 1 else 0) n,
   mkConsole (mkIO (isatty (file con))
                   (printed (file con) ++ drawn (isatty (file con)) n)
                   (flushes (file con) +
                    if isatty (file con) then (if n is O then 0 else S n)
                    else Nat.min n 1))
             (atexit_finish con + Nat.min n 1)).
Proof.
  destruct con as [[t p f] a]. destruct n as [|n].
  - simpl. rewrite app_nil_r. destruct t; simpl; fields.
  - cbn [updates]. destruct t.
    + change (update Spinner__init__ (mkConsole (mkIO true p f) a))
        with (mkSpinner 1 1,
              mkConsole (mkIO true ((p ++ [cursor_hide]) ++ ["-"%string])
                              (S (S f))) (S a)).
      cbv iota. rewrite updates_steady by reflexivity. simpl.
      rewrite <- !app_assoc. simpl. fields.
    + change (update Spinner__init__ (mkConsole (mkIO false p f) a))
        with (mkSpinner 0 1,
              mkConsole (mkIO false (p ++ [cursor_hide]) (S f)) (S a)).
      cbv iota. rewrite updates_pipe by reflexivity. simpl. fields.
Qed.

(** A fresh spinner turned [n] times has counted [n] turns, hidden the
    cursor and registered the exit hook once (at the first turn, also on a
    stream that is not a terminal), and drawn one frame per turn on a
    terminal and none elsewhere; the frames repeat with period 4 and the
    spinner never gets wider than one character. *)
Theorem spinner_turns (n : nat) (con : Console) :
  count (updates n Spinner__init__ con).1 = n /\
  printed (file (updates n Spinner__init__ con).2) =
    printed (file con) ++ drawn (isatty (file con)) n /\
  atexit_finish (updates n Spinner__init__ con).2 =
    atexit_finish con + Nat.min n 1 /\
  width (updates n Spinner__init__ con).1 =
    (if isatty (file con) then Nat.min n 1 else 0) /\
  isatty (file (updates n Spinner__init__ con).2) = isatty (file con) /\
  (forall j, frame (j + 4) = frame j).
Proof.
  rewrite updates_fresh. simpl. repeat split.
  intros j. unfold frame.
  replace (j + 4) with (j + 1 * 4) by lia.
  by rewrite Nat.Div0.mod_add.
Qed.

Lemma emits_updates (k : nat) (sp : Spinner) (con : Console) (sd : list Said) :
  emits k (mkWorker (Some sp) con sd) =
  mkWorker (Some (updates k sp con).1) (updates k sp con).2 sd.
Proof.
  revert sp con. induction k as [|k IH]; intros sp con; [reflexivity|].
  cbn [emits updates]. unfold emit. cbn [spinner console said].
  destruct (update sp con) as [sp1 con1]. apply IH.
Qed.

Lemma emits_off (m : nat) (w : Worker) : spinner w = None -> emits m w = w.
Proof.
  intros Hoff. induction m as [|m IH]; [reflexivity|].
  cbn [emits]. unfold emit. by rewrite Hoff.
Qed.

(** A worker that logged [k] records through the spinner handler and then
    finished starting up has switched the spinner off and shown the cursor
    again after whatever was drawn (also when nothing had hidden it);
    later records draw nothing, and a second end of startup only logs. *)
Theorem startup_finishes_spinner (stdout : IO) (registered k : nat) :
  let w := on_startup_finished (emits k (Worker__init__ stdout registered)) in
  spinner w = None /\
  printed (file (console w)) =
    printed stdout ++ drawn (isatty stdout) k ++ [cursor_show] /\
  said w = [Blockdetection; Say "ready- ^"] /\
  (forall m, emits m w = w) /\
  console (on_startup_finished w) = console w /\
  said (on_startup_finished w) = said w ++ [Blockdetection; Log_info "Ready"].
Proof.
  unfold Worker__init__. rewrite emits_updates, updates_fresh.
  cbn. repeat split.
  - by rewrite <- app_assoc.
  - intros m. by apply emits_off.
Qed.

Definition spinner_handlers (logger : Logger) : nat :=
  length (List.filter (fun h => match kind h with
                                | SpinnerHandler => true
                                | StreamHandler => false
                                end) (handlers logger)).

(** Set up at a verbose level (non-zero and below [WARN]) the hook
    switches the spinner off and leaves the logger alone, with or without
    handlers; whatever is logged afterwards, nothing is drawn. *)
Theorem verbose_level_silences_spinner
    (w : Worker) (logger : Logger) (level : Z) (n : nat) :
  level <> 0%Z -> (level < WARN)%Z ->
  exists w',
    on_setup_root_logger w logger level = Done (w', logger) /\
    spinner w' = None /\
    console w' = console w /\
    emits n w' = w'.
Proof.
  intros Hnz Hlt. unfold on_setup_root_logger.
  apply Z.eqb_neq in Hnz. apply Z.ltb_lt in Hlt. rewrite Hnz, Hlt. simpl.
  eexists. repeat split. by apply emits_off.
Qed.

Lemma verbose_level_silences_spinner_witness :
  exists w',
    on_setup_root_logger (Worker__init__ (mkIO true [] 0) 0)
                         (mkLogger 0 [mkHandler StreamHandler 0]) 20 =
      Done (w', mkLogger 0 [mkHandler StreamHandler 0]) /\
    spinner w' = None /\
    console w' = console (Worker__init__ (mkIO true [] 0) 0) /\
    emits 5 w' = w'.
Proof.
  apply (verbose_level_silences_spinner
           (Worker__init__ (mkIO true [] 0) 0)
           (mkLogger 0 [mkHandler StreamHandler 0]) 20 5);
    [discriminate | reflexivity].
Defined.

(** When the hook returns, the spinner is on afterwards exactly if it was
    on and the level is 0 or at least [WARN]; in that case the logger is
    at [DEBUG], its first handler at the level asked for, and exactly one
    spinner handler, at [DEBUG], was added at the end; otherwise the logger
    is as before.  The hook raises exactly when the spinner stays on and
    the logger has no handler. *)
Theorem setup_installs_spinner_handler
    (w : Worker) (logger : Logger) (level : Z) :
  let stays_on := is_Some (spinner w) /\ (level = 0%Z \/ (WARN <= level)%Z) in
  (on_setup_root_logger w logger level = IndexError <->
   stays_on /\ handlers logger = []) /\
  (forall w' logger',
     on_setup_root_logger w logger level = Done (w', logger') ->
     console w' = console w /\ said w' = said w /\
     (is_Some (spinner w') <-> stays_on) /\
     (is_Some (spinner w') ->
      spinner w' = spinner w /\
      logger_level logger' = DEBUG /\
      (handler_level <$> head (handlers logger')) = Some level /\
      last (handlers logger') = Some (mkHandler SpinnerHandler DEBUG) /\
      length (handlers logger') = S (length (handlers logger)) /\
      spinner_handlers logger' = S (spinner_handlers logger)) /\
     (spinner w' = None -> logger' = logger)).
Proof.
  intros stays_on. subst stays_on. unfold on_setup_root_logger.
  assert (Hcases : (negb (Z.eqb level 0) && Z.ltb level WARN = true /\ level <> 0%Z /\ (level < WARN)%Z) \/
                   (negb (Z.eqb level 0) && Z.ltb level WARN = false /\ (level = 0%Z \/ (WARN <= level)%Z))).
  { destruct (Z.eqb_spec level 0), (Z.ltb_spec level WARN); simpl; auto. }
  destruct Hcases as [(-> & Hnz & Hlt)|(-> & Hlevel)]; simpl.
  - split.
    + split; [discriminate|]. intros [[_ [?|?]] _]; lia.
    + intros w' logger' [= <- <-]. simpl.
      split; [done|]. split; [done|]. split; [|split].
      * split; [by intros [? ?]|intros [_ [?|?]]; lia].
      * by intros [? ?].
      * done.
  - destruct (spinner w) as [sp|] eqn:Hsp.
    + destruct (handlers logger) as [|h rest] eqn:Hh.
      * split; [|intros w' logger' [=]].
        split; [intros _|done]. split; [|done]. split; [by eexists|done].
      * split; [split; [discriminate|by intros [_ ?]]|].
        intros w' logger' [= <- <-]. rewrite Hsp. simpl.
        split; [done|]. split; [done|]. split; [|split].
        -- split; [intros _|by eexists]. split; [by eexists|done].
        -- intros _. split; [done|]. split; [done|]. split; [done|].
           split; [|split].
           ++ by rewrite last_cons, last_snoc.
           ++ rewrite length_app. simpl. lia.
           ++ unfold spinner_handlers. simpl. rewrite Hh. simpl.
              rewrite List.filter_app.
              destruct (kind h); simpl; rewrite length_app; simpl; lia.
        -- intros [=].
    + split; [split; [discriminate|by intros [[[? ?] _] _]]|].
      intros w' logger' [= <- <-]. rewrite Hsp.
      split; [done|]. split; [done|]. split; [|split].
      * split; [by intros [? ?]|by intros [[? ?] _]].
      * by intros [? ?].
      * done.
Qed.

(** ** Grouping partitions by topic *)

(** A topic partition as [format_log_arguments] reads it: [tp.topic] and
    [tp.partition]. *)
Record TP : Type := mkTP {
  tp_topic : string;
  tp_partition : Z
}.

(** [topics[t].add(p)] on [topics = defaultdict(set)]: a dict keeps its
    keys in the order of their insertion, and a missing key is inserted
    with the empty set before the partition is added. *)
Fixpoint add_partition (t : string) (p : Z) (topics : list (string * gset Z))
  : list (string * gset Z) :=
  match topics with
  | [] => [(t, {[p]})]
  | (k, v) :: rest =>
      if decide (k = t) then (k, v ∪ {[p]}) :: rest
      else (k, v) :: add_partition t p rest
  end.

(** The loop of [format_log_arguments] over a list or set of topic
    partitions, [arg] being the elements in the order of iteration: the
    rows that go to the table, before [repr]. *)
Definition group_partitions (arg : list TP) : list (string * gset Z) :=
  foldl (fun topics tp => add_partition (tp_topic tp) (tp_partition tp) topics)
        [] arg.

Lemma add_partition_keys (t : string) (p : Z) (topics : list (string * gset Z)) :
  topics.*1 ++ (if decide (t ∈ topics.*1) then [] else [t]) =
  (add_partition t p topics).*1.
Proof.
  induction topics as [|[k v] rest IH].
  - cbn [add_partition]. destruct (decide (t ∈ ([] : list (string * gset Z)).*1))
      as [Hin|_]; [by apply elem_of_nil in Hin|reflexivity].
  - cbn [add_partition]. rewrite fmap_cons. cbn [fst].
    destruct (decide (k = t)) as [->|Hne].
    + rewrite fmap_cons. cbn [fst].
      destruct (decide (t ∈ t :: rest.*1)) as [_|Hout];
        [by rewrite app_nil_r|].
      exfalso. apply Hout, list_elem_of_here.
    + rewrite fmap_cons. cbn [fst]. rewrite <- IH.
      rewrite <- app_comm_cons. f_equal. f_equal.
      destruct (decide (t ∈ rest.*1)) as [Hin|Hout],
               (decide (t ∈ k :: rest.*1)) as [Hin'|Hout']; trivial.
      * exfalso. by apply Hout', list_elem_of_further.
      * exfalso. apply elem_of_cons in Hin' as [?|?]; congruence.
Qed.

Lemma add_partition_NoDup (t : string) (p : Z) (topics : list (string * gset Z)) :
  NoDup topics.*1 -> NoDup (add_partition t p topics).*1.
Proof.
  intros Hnd. rewrite <- add_partition_keys. case_decide.
  - by rewrite app_nil_r.
  - apply NoDup_app. repeat split; trivial.
    + intros x Hx ->%list_elem_of_singleton. done.
    + apply NoDup_singleton.
Qed.

Lemma add_partition_elem (t t' : string) (p p' : Z)
    (topics : list (string * gset Z)) :
  (exists v, (t', v) ∈ add_partition t p topics /\ p' ∈ v) <->
  (exists v, (t', v) ∈ topics /\ p' ∈ v) \/ (t' = t /\ p' = p).
Proof.
  induction topics as [|[k v] rest IH]; cbn [add_partition].
  - split.
    + intros (v & Hin & Hp). apply list_elem_of_singleton in Hin.
      injection Hin as Ht Hv. subst. apply elem_of_singleton in Hp. by right.
    + intros [(v & Hin & _)|[-> ->]]; [by apply elem_of_nil in Hin|].
      exists {[p]}. split; [apply list_elem_of_here|by apply elem_of_singleton].
  - destruct (decide (k = t)) as [->|Hne].
    + split.
      * intros (v' & Hin & Hp). apply elem_of_cons in Hin as [Heq|Hin].
        -- injection Heq as Ht Hv. subst.
           apply elem_of_union in Hp as [Hp|Hp].
           ++ left. exists v. split; [apply list_elem_of_here|done].
           ++ apply elem_of_singleton in Hp. by right.
        -- left. exists v'. split; [by apply list_elem_of_further|done].
      * intros [(v' & Hin & Hp)|[-> ->]].
        -- apply elem_of_cons in Hin as [Heq|Hin].
           ++ injection Heq as Ht Hv. subst.
              exists (v ∪ {[p]}). split; [apply list_elem_of_here|].
              by apply elem_of_union_l.
           ++ exists v'. split; [by apply list_elem_of_further|done].
        -- exists (v ∪ {[p]}). split; [apply list_elem_of_here|].
           by apply elem_of_union_r, elem_of_singleton.
    + split.
      * intros (v' & Hin & Hp). apply elem_of_cons in Hin as [Heq|Hin].
        -- injection Heq as Ht Hv. subst.
           left. exists v. split; [apply list_elem_of_here|done].
        -- destruct (proj1 IH (ex_intro _ v' (conj Hin Hp)))
             as [(v'' & Hin' & Hp')|Hnew]; [|by right].
           left. exists v''. split; [by apply list_elem_of_further|done].
      * intros [(v' & Hin & Hp)|Hnew].
        -- apply elem_of_cons in Hin as [Heq|Hin].
           ++ injection Heq as Ht Hv. subst.
              exists v. split; [apply list_elem_of_here|done].
           ++ destruct (proj2 IH (or_introl (ex_intro _ v' (conj Hin Hp))))
                as (v'' & Hin' & Hp').
              exists v''. split; [by apply list_elem_of_further|done].
        -- destruct (proj2 IH (or_intror Hnew)) as (v'' & Hin' & Hp').
           exists v''. split; [by apply list_elem_of_further|done].
Qed.

Lemma foldl_add_partition_facts (arg : list TP) (topics : list (string * gset Z)) :
  let grouped :=
    foldl (fun topics tp => add_partition (tp_topic tp) (tp_partition tp) topics)
          topics arg in
  (NoDup topics.*1 -> NoDup grouped.*1) /\
  (forall t p, (exists v, (t, v) ∈ grouped /\ p ∈ v) <->
               (exists v, (t, v) ∈ topics /\ p ∈ v) \/ mkTP t p ∈ arg).
Proof.
  revert topics. induction arg as [|[t0 p0] arg IH]; intros topics; simpl.
  - split; [done|]. intros t p. split; [by left|].
    intros [?|[]%elem_of_nil]. done.
  - destruct (IH (add_partition t0 p0 topics)) as [Hnd Hel]. split.
    + intros Hnd0. by apply Hnd, add_partition_NoDup.
    + intros t p. rewrite Hel, add_partition_elem, elem_of_cons.
      split.
      * intros [[?|[-> ->]]|?]; auto.
      * intros [?|[[= -> ->]|?]]; auto.
Qed.

(** Grouping a list of topic partitions gives one row per topic, and a
    partition stands in the row of a topic exactly when that topic
    partition is in the list; the rows keep the order in which the topics
    first came up, a further element adding a row at the end only for a
    topic not seen before. *)
Theorem group_partitions_rows (arg : list TP) :
  NoDup (group_partitions arg).*1 /\
  (forall t p, (exists v, (t, v) ∈ group_partitions arg /\ p ∈ v) <->
               mkTP t p ∈ arg) /\
  (forall tp,
     (group_partitions (arg ++ [tp])).*1 =
     (group_partitions arg).*1 ++
     (if decide (tp_topic tp ∈ (group_partitions arg).*1) then []
      else [tp_topic tp])).
Proof.
  unfold group_partitions.
  destruct (foldl_add_partition_facts arg []) as [Hnd Hel].
  split; [apply Hnd; constructor|]. split.
  - intros t p. rewrite Hel. split; [|by right].
    intros [(v & []%elem_of_nil & _)|?]. done.
  - intros tp. rewrite foldl_app. simpl. by rewrite <- add_partition_keys.
Qed.

End Worker.
